(** * try-catch: [tryCatch] wraps a promise into a [{ data, error }] result

    The development embeds [src/index.ts].  The only function of the
    package is the async function [tryCatch]; its body is translated into a
    small coroutine monad ([async]) with the three effects the body uses:
    [await], [throw]/[catch] and the allocation of an object literal.  The
    coroutines run on a model of the host's promise machinery: a heap holding
    objects and promises, a list of suspended coroutines, and events for what
    the caller and the job queue do. *)

From Stdlib Require Import ZArith Floats.SpecFloat.
From stdpp Require Import base tactics option list strings.

(** ** Values of the host language *)

(** Heap locations: the heap is a growing array and a location is an index. *)
Abbreviation loc := nat (only parsing).

(** The language's values.  Objects (the result literal, [Error] instances,
    promises) are references into the heap, so that two references are the
    same object exactly when they are the same location. *)
Inductive value : Type :=
  | VUndefined
  | VNull
  | VBool (b : bool)
  | VNum (f : spec_float)
  | VBigInt (z : Z)
  | VStr (s : string)
  | VSymbol (n : nat)
  | VRef (l : loc).

(** [ToBoolean], the conversion an [if (result.error)] test applies. *)
Definition truthy (v : value) : bool :=
  match v with
  | VUndefined | VNull => false
  | VBool b => b
  | VNum (S754_zero _) | VNum S754_nan => false
  | VNum _ => true
  | VBigInt z => negb (Z.eqb z 0)
  | VStr s => negb (String.eqb s "")
  | VSymbol _ | VRef _ => true
  end.

(** An ordinary object: its own properties in creation order, and whether it
    carries the internal slot that [new Error(...)] gives its instances. *)
Record object : Type := Object {
  o_error_data : bool;
  o_props : list (string * value)
}.

(** An object literal [{ k1: v1, ..., kn: vn }]. *)
Definition literal (props : list (string * value)) : object :=
  Object false props.

(** Property read [o.k]: a missing property reads as [undefined]. *)
Fixpoint get_prop (props : list (string * value)) (k : string) : value :=
  match props with
  | [] => VUndefined
  | (k', v) :: rest => if String.eqb k' k then v else get_prop rest k
  end.

(** How a promise settled, and the state of a promise. *)
Inductive settlement : Type :=
  | Fulfilled (v : value)
  | Rejected (e : value).

Inductive pstate : Type :=
  | Pending
  | Settled (s : settlement).

Inductive cell : Type :=
  | CObject (o : object)
  | CPromise (st : pstate).

Abbreviation heap := (list cell) (only parsing).

(** ** The coroutine monad of async function bodies *)

(** A computation either returns, throws, suspends on [await p] (with one
    continuation for the fulfilment value and one for the rejection reason),
    or evaluates an object literal and goes on with the new reference. *)
Inductive async (A : Type) : Type :=
  | Return (a : A)
  | Throw (e : value)
  | Await (p : loc) (kf : value → async A) (kr : value → async A)
  | NewObject (o : object) (k : value → async A).

Arguments Return {A} a.
Arguments Throw {A} e.
Arguments Await {A} p kf kr.
Arguments NewObject {A} o k.

Fixpoint bind {A B : Type} (c : async A) (f : A → async B) : async B :=
  match c with
  | Return a => f a
  | Throw e => Throw e
  | Await p kf kr => Await p (λ v, bind (kf v) f) (λ e, bind (kr e) f)
  | NewObject o k => NewObject o (λ r, bind (k r) f)
  end.

#[global] Instance async_ret : MRet async := @Return.
#[global] Instance async_bind : MBind async := λ A B f c, bind c f.

(** [await p]: the fulfilment value is the value of the expression, a
    rejection is thrown at the await. *)
Definition await (p : loc) : async value := Await p Return Throw.

(** [try { body } catch (error) { handler }]: whatever [body] throws, at any
    point and after any number of suspensions, is bound to [error] and
    handled; what [handler] throws is not caught. *)
Fixpoint try_catch {A : Type} (body : async A) (handler : value → async A)
  : async A :=
  match body with
  | Return a => Return a
  | Throw e => handler e
  | Await p kf kr =>
      Await p (λ v, try_catch (kf v) handler) (λ e, try_catch (kr e) handler)
  | NewObject o k => NewObject o (λ r, try_catch (k r) handler)
  end.

(** ** The source function *)

(** [Success<T>] is [{ data: T; error: null }] and [Failure<E>] is
    [{ data: null; error: E }]; these are the two literals of the body. *)
Definition Success (data : value) : object :=
  literal [("data", data); ("error", VNull)].

Definition Failure (error : value) : object :=
  literal [("data", VNull); ("error", error)].

(** <<
    export async function tryCatch<T, E = Error>(promise: Promise<T>) {
      try {
        const data = await promise;
        return { data, error: null };
      } catch (error) {
        return { data: null, error: error as E };
      }
    }
    >>
    The cast [error as E] is erased at compile time. *)
Definition tryCatch (promise : loc) : async value :=
  try_catch
    (data ← await promise;
     NewObject (literal [("data", data); ("error", VNull)]) Return)
    (λ error,
     NewObject (literal [("data", VNull); ("error", error)]) Return).

(** ** The host's promise machinery *)

(** Running a coroutine until it finishes or suspends.  An object literal is
    allocated at the end of the heap.  A [return v] fulfils the promise of the
    async function, an uncaught [throw e] rejects it; [await] always
    suspends, also on a promise that is settled already. *)
Inductive status : Type :=
  | Finished (s : settlement)
  | Suspended (p : loc) (kf kr : value → async value).

Fixpoint exec (h : heap) (c : async value) : heap * status :=
  match c with
  | Return v => (h, Finished (Fulfilled v))
  | Throw e => (h, Finished (Rejected e))
  | Await p kf kr => (h, Suspended p kf kr)
  | NewObject o k => exec (h ++ [CObject o]) (k (VRef (length h)))
  end.

(** A suspended coroutine: the promise the async function handed to its
    caller, the promise it awaits, and the rest of its body. *)
Record task : Type := Task {
  t_out : loc;
  t_awaits : loc;
  t_kf : value → async value;
  t_kr : value → async value
}.

Record state : Type := State {
  st_heap : heap;
  st_tasks : list task
}.

Definition init : state := State [] [].

(** Run the coroutine with output promise [q] as far as it goes: when it
    finishes, [q] is settled; when it suspends, it joins the waiting tasks. *)
Definition advance (h : heap) (ts : list task) (q : loc) (c : async value)
  : state :=
  match exec h c with
  | (h', Finished s) => State (<[q := CPromise (Settled s)]> h') ts
  | (h', Suspended p kf kr) => State h' (ts ++ [Task q p kf kr])
  end.

(** What can happen: the surrounding program creates a pending promise or an
    object, or settles one of its own pending promises; the caller calls
    [tryCatch(p)]; the job queue resumes the [i]-th waiting coroutine, whose
    awaited promise has settled.  The order of events is not constrained. *)
Inductive event : Type :=
  | EvNewPromise
  | EvNewObject (o : object)
  | EvSettle (p : loc) (s : settlement)
  | EvCall (p : loc)
  | EvResume (i : nat).

Definition step (st : state) (ev : event) : option state :=
  match ev with
  | EvNewPromise =>
      Some (State (st_heap st ++ [CPromise Pending]) (st_tasks st))
  | EvNewObject o =>
      Some (State (st_heap st ++ [CObject o]) (st_tasks st))
  | EvSettle p s =>
      match st_heap st !! p with
      | Some (CPromise Pending) =>
          if bool_decide (p ∈ t_out <$> st_tasks st) then None
          else Some (State (<[p := CPromise (Settled s)]> (st_heap st))
                           (st_tasks st))
      | _ => None
      end
  | EvCall p =>
      match st_heap st !! p with
      | Some (CPromise _) =>
          Some (advance (st_heap st ++ [CPromise Pending]) (st_tasks st)
                        (length (st_heap st)) (tryCatch p))
      | _ => None
      end
  | EvResume i =>
      match st_tasks st !! i with
      | Some t =>
          match st_heap st !! t_awaits t with
          | Some (CPromise (Settled s)) =>
              Some (advance (st_heap st) (delete i (st_tasks st)) (t_out t)
                      match s with
                      | Fulfilled v => t_kf t v
                      | Rejected e => t_kr t e
                      end)
          | _ => None
          end
      | None => None
      end
  end.

Fixpoint run (st : state) (evs : list event) : option state :=
  match evs with
  | [] => Some st
  | ev :: evs' =>
      match step st ev with
      | Some st' => run st' evs'
      | None => None
      end
  end.

Definition reachable (st : state) : Prop := ∃ evs, run init evs = Some st.

(** The promise a call [tryCatch(p)] made in state [st] returns. *)
Definition call_result (st : state) : loc := length (st_heap st).

(** What the caller's [await] on the returned promise [q] gives: nothing
    while [q] is pending, the fulfilment value, or a raised exception. *)
Inductive awaited : Type :=
  | StillPending
  | Value (v : value)
  | Raised (e : value).

Definition await_result (st : state) (q : loc) : option awaited :=
  match st_heap st !! q with
  | Some (CPromise Pending) => Some StillPending
  | Some (CPromise (Settled (Fulfilled v))) => Some (Value v)
  | Some (CPromise (Settled (Rejected e))) => Some (Raised e)
  | _ => None
  end.

(** The result object the caller holds once the returned promise [q] is
    fulfilled. *)
Definition returned (st : state) (q : loc) : option object :=
  match st_heap st !! q with
  | Some (CPromise (Settled (Fulfilled (VRef l)))) =>
      match st_heap st !! l with
      | Some (CObject o) => Some o
      | _ => None
      end
  | _ => None
  end.

(** The two fields of a result, [result.data] and [result.error]. *)
Definition data_of (o : object) : value := get_prop (o_props o) "data".
Definition error_of (o : object) : value := get_prop (o_props o) "error".

(** The documented way to consume a result:
    <<
    if (result.error) { /* handle the failure */ return; }
    /* use result.data */
    >> *)
Inductive branch : Type :=
  | FailureBranch
  | SuccessBranch.

Definition documented_check (result : object) : branch :=
  if truthy (error_of result) then FailureBranch else SuccessBranch.

(** A field is populated when it does not hold the absent marker [null]. *)
Definition populated (v : value) : bool :=
  match v with
  | VNull => false
  | _ => true
  end.

(** A value is error-like when it refers to an [Error] instance. *)
Definition error_like (h : heap) (v : value) : bool :=
  match v with
  | VRef l =>
      match h !! l with
      | Some (CObject o) => o_error_data o
      | _ => false
      end
  | _ => false
  end.

(** The number of times a coroutine suspends before it finishes, when the
    promises it awaits settle as [settles] says. *)
Fixpoint suspensions (h : heap) (settles : loc → settlement)
    (c : async value) : nat :=
  match c with
  | Return _ | Throw _ => 0
  | Await p kf kr =>
      S match settles p with
        | Fulfilled v => suspensions h settles (kf v)
        | Rejected e => suspensions h settles (kr e)
        end
  | NewObject o k =>
      suspensions (h ++ [CObject o]) settles (k (VRef (length h)))
  end.

(** [new Error("boom")] *)
Definition boom : object := Object true [("message", VStr "boom")].

(** ** Heaps only grow, and what is settled stays *)

(** A cell is frozen unless it is a pending promise: nothing in the machinery
    writes to an object or to a settled promise. *)
Definition frozen (c : cell) : bool :=
  match c with
  | CPromise Pending => false
  | _ => true
  end.

Definition extends (h h' : heap) : Prop :=
  length h ≤ length h' ∧
  ∀ l c, h !! l = Some c → frozen c = true → h' !! l = Some c.

(** ** Well-formed states *)

(** The output promises of the waiting coroutines are pending, and no two
    coroutines share one. *)
Definition wf (st : state) : Prop :=
  NoDup (t_out <$> st_tasks st) ∧
  ∀ t, t ∈ st_tasks st → st_heap st !! t_out t = Some (CPromise Pending).

(** ** The life of one call *)

(** The coroutine of a call [tryCatch(p)] with output promise [q], suspended
    at its [await]: resumed with a value it allocates the success literal and
    returns it, resumed with a rejection reason it allocates the failure
    literal and returns it. *)
Definition tryCatch_frame (t : task) (q p : loc) : Prop :=
  t_out t = q ∧ t_awaits t = p ∧
  (∀ h v, exec h (t_kf t v)
          = (h ++ [CObject (Success v)], Finished (Fulfilled (VRef (length h))))) ∧
  (∀ h e, exec h (t_kr t e)
          = (h ++ [CObject (Failure e)], Finished (Fulfilled (VRef (length h))))).

(** The literal a settlement of the awaited promise leads to. *)
Definition outcome (s : settlement) : object :=
  match s with
  | Fulfilled v => Success v
  | Rejected e => Failure e
  end.

(** A call is either still suspended at its await, or it has returned: then
    its argument has settled and its output promise is fulfilled with a
    reference to the literal of that settlement. *)
Inductive call_state (st : state) (q p : loc) : Prop :=
  | call_waiting (t : task) :
      t ∈ st_tasks st → tryCatch_frame t q p → call_state st q p
  | call_done (s : settlement) (l : loc) :
      st_heap st !! p = Some (CPromise (Settled s)) →
      st_heap st !! q = Some (CPromise (Settled (Fulfilled (VRef l)))) →
      st_heap st !! l = Some (CObject (outcome s)) →
      call_state st q p.

(** [completes st q st']: [st'] is the state in which the caller of the call
    with output promise [q] has its answer.  When [q] is settled in [st] that
    is [st] itself; while [q] is pending it is the state after one job of the
    job queue. *)
Definition completes (st : state) (q : loc) (st' : state) : Prop :=
  (await_result st q ≠ Some StillPending ∧ st' = st) ∨
  (await_result st q = Some StillPending ∧
   ∃ i, step st (EvResume i) = Some st').

(** Reading the discriminant of the result behind [q]: both fields, with the
    state passed through unchanged. *)
Definition inspect (st : state) (q : loc) : state * option (value * value) :=
  (st, (λ o, (data_of o, error_of o)) <$> returned st q).

Fixpoint inspections (n : nat) (st : state) (q : loc)
  : state * list (option (value * value)) :=
  match n with
  | 0 => (st, [])
  | S n' =>
      let '(st1, a) := inspect st q in
      let '(st2, rest) := inspections n' st1 q in
      (st2, a :: rest)
  end.

(** Property write [o.k = v] on an ordinary object: an own property is
    overwritten in place, a missing one is added after the others. *)
Fixpoint set_prop (props : list (string * value)) (k : string) (v : value)
  : list (string * value) :=
  match props with
  | [] => [(k, v)]
  | (k', v') :: rest =>
      if String.eqb k' k then (k', v) :: rest
      else (k', v') :: set_prop rest k v
  end.

(** An assignment [r.k = v] made by the code that holds the reference [r] to
    the object at [l].  Object literals and [Error] instances are ordinary,
    extensible objects with writable properties, and the source freezes
    nothing, so the assignment goes through on every object. *)
Definition assign (st : state) (l : loc) (k : string) (v : value)
  : option state :=
  match st_heap st !! l with
  | Some (CObject o) =>
      Some (State (<[l := CObject (Object (o_error_data o)
                                          (set_prop (o_props o) k v))]>
                     (st_heap st))
                  (st_tasks st))
  | _ => None
  end.

Definition exactly_one_populated (o : object) : bool :=
  xorb (populated (data_of o)) (populated (error_of o)).

(** The value a settlement carries. *)
Definition settled_value (s : settlement) : value :=
  match s with
  | Fulfilled v => v
  | Rejected e => e
  end.

(** The footprint of a completing call on the heap: nothing when the call
    had completed before, and otherwise exactly one new cell, the result
    literal, and the settlement of the output promise [q]. *)
Definition result_footprint (h h' : heap) (q : loc) (o : object) : Prop :=
  h' = h ∨
  (h !! q = Some (CPromise Pending) ∧
   h' = <[q := CPromise (Settled (Fulfilled (VRef (length h))))]>
          (h ++ [CObject o])).

(** The documented way to consume two results together:
    <<
    if (userResult.error || postsResult.error) { /* handle errors */ return; }
    // Both data fields are guaranteed to be available
    const user = userResult.data;
    const posts = postsResult.data;
    >> *)
Definition documented_check_both (userResult postsResult : object) : branch :=
  if truthy (error_of userResult) || truthy (error_of postsResult)
  then FailureBranch else SuccessBranch.

(** ** Example states *)

(** One pending promise, at location 0. *)
Definition one_promise : state := State [CPromise Pending] [].

(** A pending promise at location 0 and an [Error] instance at location 1. *)
Definition promise_and_error : state := State [CPromise Pending; CObject boom] [].

(** Two pending promises, at locations 0 and 1. *)
Definition two_promises : state := State [CPromise Pending; CPromise Pending] [].

(** * Proofs *)

(** ** Heaps only grow *)

Lemma extends_refl (h : heap) : extends h h.
Proof. split; [lia | auto]. Qed.

Lemma extends_trans (h1 h2 h3 : heap) :
  extends h1 h2 → extends h2 h3 → extends h1 h3.
Proof. intros [L1 K1] [L2 K2]. split; [lia | eauto]. Qed.

Lemma extends_app (h : heap) (cs : list cell) : extends h (h ++ cs).
Proof.
  split.
  - rewrite length_app. lia.
  - intros l c Hl _. by apply lookup_app_l_Some.
Qed.

Lemma extends_settle (h : heap) (q : loc) (c : cell) :
  h !! q = Some (CPromise Pending) → extends h (<[q := c]> h).
Proof.
  intros Hq. split.
  - by rewrite length_insert.
  - intros l c' Hl Hc. destruct (decide (q = l)) as [->|Hne].
    + rewrite Hq in Hl. by simplify_eq.
    + by rewrite list_lookup_insert_ne.
Qed.

(** A coroutine touches the heap only by allocating its object literals. *)
Lemma exec_allocates (c : async value) :
  ∀ h h' r, exec h c = (h', r) → ∃ os, h' = h ++ (CObject <$> os).
Proof.
  induction c as [v|e|p kf _ kr _|o k IH]; simpl; intros h h' r Hx.
  - exists []. simplify_eq. by rewrite app_nil_r.
  - exists []. simplify_eq. by rewrite app_nil_r.
  - exists []. simplify_eq. by rewrite app_nil_r.
  - apply IH in Hx as [os ->]. exists (o :: os). by rewrite <- app_assoc.
Qed.

Lemma exec_extends (c : async value) (h h' : heap) (r : status) :
  exec h c = (h', r) → extends h h'.
Proof. intros Hx. apply exec_allocates in Hx as [os ->]. apply extends_app. Qed.

Lemma exec_pending (c : async value) (h h' : heap) (r : status) (q : loc) :
  exec h c = (h', r) →
  h !! q = Some (CPromise Pending) → h' !! q = Some (CPromise Pending).
Proof.
  intros Hx Hq. apply exec_allocates in Hx as [os ->].
  by apply lookup_app_l_Some.
Qed.

(** ** Well-formed states are preserved *)

Lemma wf_init : wf init.
Proof. split; [constructor | intros t Ht; inversion Ht]. Qed.

Lemma advance_spec (h : heap) (ts : list task) (q : loc) (c : async value) :
  NoDup (t_out <$> ts) →
  (∀ t, t ∈ ts → h !! t_out t = Some (CPromise Pending)) →
  q ∉ t_out <$> ts →
  h !! q = Some (CPromise Pending) →
  wf (advance h ts q c) ∧ extends h (st_heap (advance h ts q c)).
Proof.
  intros Hnd Hts Hq Hpq. unfold advance.
  destruct (exec h c) as [h' [s|p kf kr]] eqn:Hx; simpl.
  - pose proof (exec_pending _ _ _ _ _ Hx Hpq) as Hq'.
    split; [split; simpl; [done|] |].
    + intros t Ht. rewrite list_lookup_insert_ne.
      * eapply exec_pending; eauto.
      * intros ->. apply Hq. by apply list_elem_of_fmap_2.
    + eapply extends_trans; [by eapply exec_extends|by apply extends_settle].
  - split; [split; simpl|].
    + rewrite fmap_app. simpl. apply NoDup_app. split_and!; [done| |].
      * intros x Hx1 Hx2. apply list_elem_of_singleton in Hx2 as ->. done.
      * apply NoDup_singleton.
    + intros t [Ht| ->%list_elem_of_singleton]%elem_of_app; simpl.
      * eapply exec_pending; eauto.
      * eapply exec_pending; eauto.
    + by eapply exec_extends.
Qed.

Lemma wf_out_lt (st : state) (t : task) :
  wf st → t ∈ st_tasks st → t_out t < length (st_heap st).
Proof. intros [_ Hts] Ht. eapply lookup_lt_Some. by apply Hts. Qed.

Lemma step_wf_extends (st st' : state) (ev : event) :
  wf st → step st ev = Some st' →
  wf st' ∧ extends (st_heap st) (st_heap st').
Proof.
  intros Hwf Hstep. pose proof Hwf as [Hnd Hts].
  destruct ev as [|o|p s|p|i]; simpl in Hstep.
  - simplify_eq. split; [split; simpl; [done|]|apply extends_app].
    intros t Ht. apply lookup_app_l_Some. auto.
  - simplify_eq. split; [split; simpl; [done|]|apply extends_app].
    intros t Ht. apply lookup_app_l_Some. auto.
  - destruct (st_heap st !! p) as [[|[|]]|] eqn:Hp; try done.
    case_bool_decide as Hin; simplify_eq.
    split; [split; simpl; [done|]|by apply extends_settle].
    intros t Ht. rewrite list_lookup_insert_ne; [auto|].
    intros ->. apply Hin. by apply list_elem_of_fmap_2.
  - destruct (st_heap st !! p) as [[|ps]|] eqn:Hp; try done. simplify_eq.
    edestruct (advance_spec (st_heap st ++ [CPromise Pending]) (st_tasks st)
                 (length (st_heap st)) (tryCatch p)) as [Hw He]; try done.
    + intros t Ht. apply lookup_app_l_Some. auto.
    + intros (t & Heq & Ht)%list_elem_of_fmap.
      pose proof (wf_out_lt st t Hwf Ht). lia.
    + rewrite lookup_app_r by lia. by rewrite Nat.sub_diag.
    + split; [done|]. eapply extends_trans; [apply extends_app|done].
  - destruct (st_tasks st !! i) as [t|] eqn:Hi; try done.
    destruct (st_heap st !! t_awaits t) as [[|[|s]]|] eqn:Hp; try done.
    simplify_eq. apply advance_spec.
    + rewrite list_fmap_delete. eapply sublist_NoDup; [exact Hnd|apply sublist_delete].
    + intros t' Ht'. apply Hts. by eapply list_elem_of_delete_inv.
    + rewrite list_fmap_delete.
      assert (Ht : (t_out <$> st_tasks st) !! i = Some (t_out t))
        by by rewrite list_lookup_fmap, Hi.
      intros (j & Hj)%list_elem_of_lookup.
      destruct (decide (j < i)).
      * rewrite list_lookup_delete_lt in Hj by done.
        pose proof (NoDup_lookup _ _ _ _ Hnd Hj Ht). lia.
      * rewrite list_lookup_delete_ge in Hj by lia.
        pose proof (NoDup_lookup _ _ _ _ Hnd Hj Ht). lia.
    + apply Hts. by eapply list_elem_of_lookup_2.
Qed.

Lemma run_cons_inv (st st' : state) (ev : event) (evs : list event) :
  run st (ev :: evs) = Some st' →
  ∃ st1, step st ev = Some st1 ∧ run st1 evs = Some st'.
Proof.
  cbn [run]. destruct (step st ev) as [st1|]; [|done]. intros Hrun. eauto.
Qed.

Lemma run_wf_extends (evs : list event) :
  ∀ st st', wf st → run st evs = Some st' →
  wf st' ∧ extends (st_heap st) (st_heap st').
Proof.
  induction evs as [|ev evs IH]; simpl; intros st st' Hwf Hrun.
  - simplify_eq. split; [done|apply extends_refl].
  - destruct (step st ev) as [st1|] eqn:Hstep; [|done].
    destruct (step_wf_extends _ _ _ Hwf Hstep) as [Hwf1 He1].
    destruct (IH _ _ Hwf1 Hrun) as [Hwf' He']. split; [done|].
    by eapply extends_trans.
Qed.

Lemma reachable_wf (st : state) : reachable st → wf st.
Proof. intros [evs Hrun]. by eapply run_wf_extends; [apply wf_init|]. Qed.

(** ** The invariant of a call *)

Lemma call_starts (st st1 : state) (p : loc) :
  step st (EvCall p) = Some st1 →
  st_heap st1 = st_heap st ++ [CPromise Pending] ∧
  ∃ t, st_tasks st1 = st_tasks st ++ [t] ∧ tryCatch_frame t (call_result st) p.
Proof.
  simpl. destruct (st_heap st !! p) as [[|ps]|]; try done.
  intros [= <-]. split; [done|].
  eexists. split; [reflexivity|]. by repeat split.
Qed.

Lemma resume_frame (st : state) (i : nat) (t : task) (q p : loc)
    (s : settlement) :
  st_tasks st !! i = Some t → tryCatch_frame t q p →
  st_heap st !! p = Some (CPromise (Settled s)) →
  step st (EvResume i)
  = Some (State (<[q := CPromise (Settled (Fulfilled (VRef (length (st_heap st)))))]>
                   (st_heap st ++ [CObject (outcome s)]))
                (delete i (st_tasks st))).
Proof.
  intros Hi (Hq & Hp & Hf & Hr) Hs. simpl. rewrite Hi, Hp, Hs.
  unfold advance. destruct s as [v|e]; [rewrite Hf|rewrite Hr]; by rewrite Hq.
Qed.

Lemma task_by_out (st : state) (t t' : task) :
  wf st → t ∈ st_tasks st → t' ∈ st_tasks st → t_out t = t_out t' → t = t'.
Proof.
  intros [Hnd _] [i Hi]%list_elem_of_lookup [j Hj]%list_elem_of_lookup Heq.
  assert (i = j) as ->; [|congruence].
  eapply NoDup_lookup; [exact Hnd| |].
  - by rewrite list_lookup_fmap, Hi.
  - by rewrite list_lookup_fmap, Hj, Heq.
Qed.

Lemma advance_tasks (h : heap) (ts : list task) (q : loc) (c : async value)
    (t : task) :
  t ∈ ts → t ∈ st_tasks (advance h ts q c).
Proof.
  intros Ht. unfold advance.
  destruct (exec h c) as [h' [s|p' kf kr]]; simpl; [done|].
  apply elem_of_app. by left.
Qed.

Lemma done_after_resume (h : heap) (q p : loc) (s : settlement) (o : object) :
  h !! p = Some (CPromise (Settled s)) →
  h !! q = Some (CPromise Pending) →
  let h' := <[q := CPromise (Settled (Fulfilled (VRef (length h))))]>
              (h ++ [CObject o]) in
  h' !! p = Some (CPromise (Settled s)) ∧
  h' !! q = Some (CPromise (Settled (Fulfilled (VRef (length h))))) ∧
  h' !! length h = Some (CObject o).
Proof.
  intros Hp Hq h'. subst h'.
  pose proof (lookup_lt_Some _ _ _ Hq) as Hlt. split_and!.
  - rewrite list_lookup_insert_ne by congruence. by apply lookup_app_l_Some.
  - apply list_lookup_insert_eq. rewrite length_app. lia.
  - rewrite list_lookup_insert_ne by lia.
    rewrite lookup_app_r by lia. by rewrite Nat.sub_diag.
Qed.

Lemma call_state_step (st st' : state) (ev : event) (q p : loc) :
  wf st → step st ev = Some st' → call_state st q p → call_state st' q p.
Proof.
  intros Hwf Hstep Hc.
  destruct (step_wf_extends _ _ _ Hwf Hstep) as [_ [_ Hext]].
  destruct Hc as [t Ht Hfr|s l Hp Hq Hl].
  2: { eapply call_done; eauto. }
  destruct ev as [|o|p' s|p'|j].
  - simpl in Hstep. simplify_eq. by eapply call_waiting.
  - simpl in Hstep. simplify_eq. by eapply call_waiting.
  - simpl in Hstep.
    destruct (st_heap st !! p') as [[|[|]]|]; try done.
    case_bool_decide; simplify_eq. by eapply call_waiting.
  - apply call_starts in Hstep as (_ & t' & Hts' & _).
    eapply call_waiting; [|done]. rewrite Hts'. apply elem_of_app. by left.
  - pose proof Hstep as Hstep'. simpl in Hstep.
    destruct (st_tasks st !! j) as [tj|] eqn:Hj; [|done].
    destruct (st_heap st !! t_awaits tj) as [[|[|s]]|] eqn:Hs; try done.
    destruct (decide (t_out tj = q)) as [Hout|Hout].
    + assert (tj = t) as ->.
      { apply (task_by_out st); [done|by eapply list_elem_of_lookup_2|done|].
        destruct Hfr as [-> _]. done. }
      pose proof Hfr as (_ & Hpt & _). rewrite Hpt in Hs.
      rewrite (resume_frame _ _ _ _ _ _ Hj Hfr Hs) in Hstep'.
      destruct Hwf as [_ Hts].
      pose proof (Hts _ Ht) as Hq. rewrite Hout in Hq.
      destruct (done_after_resume _ _ _ _ (outcome s) Hs Hq) as (? & ? & ?).
      injection Hstep' as <-. by eapply call_done.
    + simplify_eq. eapply call_waiting; [|done]. apply advance_tasks.
      rewrite (delete_Permutation _ _ _ Hj) in Ht.
      apply elem_of_cons in Ht as [->|Ht]; [|done].
      destruct Hfr as [? _]. done.
Qed.

Lemma call_state_run (evs : list event) (q p : loc) :
  ∀ st st', wf st → run st evs = Some st' →
  call_state st q p → call_state st' q p.
Proof.
  induction evs as [|ev evs IH]; simpl; intros st st' Hwf Hrun Hc.
  - by simplify_eq.
  - destruct (step st ev) as [st1|] eqn:Hstep; [|done].
    eapply IH; [|done|by eapply call_state_step].
    by eapply step_wf_extends.
Qed.

(** After a call in a well-formed state and any further events, the state
    is well formed and the call is waiting or done. *)
Lemma call_invariant (st st1 st2 : state) (p : loc) (evs : list event) :
  wf st → step st (EvCall p) = Some st1 → run st1 evs = Some st2 →
  wf st2 ∧ call_state st2 (call_result st) p.
Proof.
  intros Hr Hcall Hrun.
  destruct (step_wf_extends _ _ _ Hr Hcall) as [Hwf1 _].
  split; [by eapply run_wf_extends|].
  eapply call_state_run; [done..|].
  apply call_starts in Hcall as (_ & t & Hts & Hfr).
  eapply call_waiting; [|done]. rewrite Hts. apply elem_of_app. right.
  by apply list_elem_of_singleton.
Qed.

Lemma waiting_pending (st : state) (t : task) (q p : loc) :
  wf st → t ∈ st_tasks st → tryCatch_frame t q p →
  st_heap st !! q = Some (CPromise Pending).
Proof. intros [_ Hts] Ht [<- _]. by apply Hts. Qed.

Lemma returned_done (h : heap) (ts : list task) (q l : loc) (o : object) :
  h !! q = Some (CPromise (Settled (Fulfilled (VRef l)))) →
  h !! l = Some (CObject o) →
  returned (State h ts) q = Some o.
Proof. intros Hq Hl. unfold returned. simpl. by rewrite Hq, Hl. Qed.

Lemma result_footprint_extends (h h' : heap) (q : loc) (o : object) :
  result_footprint h h' q o → extends h h' ∧ length h' ≤ S (length h).
Proof.
  intros [->|[Hq ->]].
  - split; [apply extends_refl|lia].
  - split.
    + eapply extends_trans; [apply extends_app|].
      apply extends_settle. by apply lookup_app_l_Some.
    + rewrite length_insert, length_app. simpl. lia.
Qed.

Lemma result_footprint_error_like (h h' : heap) (q : loc) (o : object)
    (v : value) :
  result_footprint h h' q o → o_error_data o = false →
  error_like h' v = error_like h v.
Proof.
  intros [->|[Hq ->]] Ho; [done|].
  destruct v as [| | | | | | |l]; try done. simpl.
  pose proof (lookup_lt_Some _ _ _ Hq) as Hlt.
  destruct (decide (l = q)) as [->|Hne].
  - rewrite list_lookup_insert_eq by (rewrite length_app; lia). by rewrite Hq.
  - rewrite list_lookup_insert_ne by done.
    destruct (decide (l < length h)) as [Hl|Hl].
    + by rewrite lookup_app_l.
    + rewrite lookup_app_r by lia. rewrite (lookup_ge_None_2 h l) by lia.
      destruct (l - length h) as [|n]; simpl; [by rewrite Ho|done].
Qed.

(** Once the argument of a call has settled, the call completes, at once or
    with the next job, and the caller holds the literal of that settlement. *)
Lemma call_completes (st : state) (q p : loc) (s : settlement) :
  wf st → call_state st q p →
  st_heap st !! p = Some (CPromise (Settled s)) →
  ∃ st', completes st q st' ∧ returned st' q = Some (outcome s) ∧
         result_footprint (st_heap st) (st_heap st') q (outcome s) ∧
         (∀ t, t ∈ st_tasks st' → t_out t ≠ q).
Proof.
  intros Hwf [t Ht Hfr|s' l Hp Hq Hl] Hs.
  - pose proof (waiting_pending _ _ _ _ Hwf Ht Hfr) as Hq.
    apply list_elem_of_lookup in Ht as [i Hi].
    pose proof (resume_frame _ _ _ _ _ _ Hi Hfr Hs) as Hstep.
    destruct (step_wf_extends _ _ _ Hwf Hstep) as [Hwf' Hext].
    destruct (done_after_resume _ _ _ _ (outcome s) Hs Hq) as (Hp' & Hq' & Hl').
    eexists. split_and!.
    + right. split; [|by exists i]. unfold await_result. by rewrite Hq.
    + by eapply returned_done.
    + by right.
    + intros t' Ht' Heq. destruct Hwf' as [_ Hts'].
      apply Hts' in Ht'. rewrite Heq in Ht'. simpl in Ht'. congruence.
  - rewrite Hp in Hs. simplify_eq. exists st. split_and!.
    + left. split; [|done]. unfold await_result. by rewrite Hq.
    + destruct st. by eapply returned_done.
    + by left.
    + intros t' Ht' Heq. destruct Hwf as [_ Hts].
      apply Hts in Ht'. rewrite Heq in Ht'. congruence.
Qed.

(** What a call has returned is the literal of its argument's settlement. *)
Lemma call_returned (st : state) (q p : loc) (o : object) :
  wf st → call_state st q p → returned st q = Some o →
  ∃ s, st_heap st !! p = Some (CPromise (Settled s)) ∧ o = outcome s.
Proof.
  intros Hwf [t Ht Hfr|s l Hp Hq Hl] Hret.
  - pose proof (waiting_pending _ _ _ _ Hwf Ht Hfr) as Hq.
    unfold returned in Hret. by rewrite Hq in Hret.
  - unfold returned in Hret. rewrite Hq, Hl in Hret. simplify_eq. eauto.
Qed.

(** A call never rejects its output promise. *)
Lemma call_not_raised (st : state) (q p : loc) (e : value) :
  wf st → call_state st q p → await_result st q ≠ Some (Raised e).
Proof.
  intros Hwf [t Ht Hfr|s l Hp Hq Hl]; unfold await_result.
  - by rewrite (waiting_pending _ _ _ _ Hwf Ht Hfr).
  - by rewrite Hq.
Qed.

(** While the argument is pending, so is the output promise. *)
Lemma call_suspended (st : state) (q p : loc) :
  wf st → call_state st q p →
  st_heap st !! p = Some (CPromise Pending) →
  await_result st q = Some StillPending.
Proof.
  intros Hwf [t Ht Hfr|s l Hp Hq Hl] Hpend; unfold await_result.
  - by rewrite (waiting_pending _ _ _ _ Hwf Ht Hfr).
  - congruence.
Qed.

(** Later events leave a returned result as it is. *)
Lemma returned_stable (st st' : state) (q : loc) (o : object) (evs : list event) :
  wf st → run st evs = Some st' → returned st q = Some o →
  returned st' q = Some o.
Proof.
  intros Hwf Hrun Hret.
  destruct (run_wf_extends _ _ _ Hwf Hrun) as [_ [_ Hext]].
  unfold returned in *.
  destruct (st_heap st !! q) as [[o1|[|[[| | | | | | |l]|e]]]|] eqn:Hq; try done.
  destruct (st_heap st !! l) as [[o'|]|] eqn:Hl; try done. simplify_eq.
  by rewrite (Hext _ _ Hq eq_refl), (Hext _ _ Hl eq_refl).
Qed.

Lemma await_value (st : state) (q : loc) (v : value) :
  await_result st q = Some (Value v) →
  st_heap st !! q = Some (CPromise (Settled (Fulfilled v))).
Proof.
  unfold await_result.
  destruct (st_heap st !! q) as [[o|[|[v'|e]]]|]; try done. by intros [= ->].
Qed.

Lemma returned_settled (st : state) (q : loc) (o : object) :
  returned st q = Some o →
  ∃ l, st_heap st !! q = Some (CPromise (Settled (Fulfilled (VRef l)))) ∧
       st_heap st !! l = Some (CObject o).
Proof.
  unfold returned. intros Hret.
  destruct (st_heap st !! q) as [[o1|[|[[| | | | | | |l]|e]]]|] eqn:Hq; try done.
  destruct (st_heap st !! l) as [[o'|]|] eqn:Hl; try done.
  simplify_eq. eauto.
Qed.

(** An assignment to a field of a returned result goes through, and the
    caller then holds the object with that field rewritten. *)
Lemma assign_returned (st : state) (q : loc) (o : object) (k : string)
    (v : value) :
  returned st q = Some o →
  ∃ l st',
    await_result st q = Some (Value (VRef l)) ∧
    assign st l k v = Some st' ∧
    returned st' q
    = Some (Object (o_error_data o) (set_prop (o_props o) k v)).
Proof.
  intros (l & Hq & Hl)%returned_settled.
  exists l. unfold assign. rewrite Hl. eexists. split_and!.
  - unfold await_result. by rewrite Hq.
  - done.
  - unfold returned. simpl.
    assert (l ≠ q) as Hne by (intros ->; congruence).
    rewrite list_lookup_insert_ne, Hq by done.
    by rewrite list_lookup_insert_eq by by eapply lookup_lt_Some.
Qed.

(** ** The example states are reachable *)

Lemma one_promise_reachable : reachable one_promise.
Proof. by exists [EvNewPromise]. Qed.

Lemma promise_and_error_reachable : reachable promise_and_error.
Proof. by exists [EvNewPromise; EvNewObject boom]. Qed.

(** ** The properties of [tryCatch] *)

(** C1. When the promise passed to [tryCatch] is fulfilled with a value [v],
    the call completes and the caller holds the success literal: its
    [data] field is [v] itself and its [error] field is [null]. *)
Theorem tryCatch_fulfilled_gives_success
    (st st1 st2 : state) (p : loc) (evs : list event) (v : value) :
  reachable st →
  step st (EvCall p) = Some st1 →
  run st1 evs = Some st2 →
  st_heap st2 !! p = Some (CPromise (Settled (Fulfilled v))) →
  ∃ st3 o,
    completes st2 (call_result st) st3 ∧
    returned st3 (call_result st) = Some o ∧
    o = Success v ∧ data_of o = v ∧ error_of o = VNull.
Proof.
  intros Hr Hcall Hrun Hp. apply reachable_wf in Hr.
  destruct (call_invariant _ _ _ _ _ Hr Hcall Hrun) as [Hwf Hc].
  destruct (call_completes _ _ _ _ Hwf Hc Hp) as (st3 & Hcomp & Hret & _).
  exists st3, (Success v). by split_and!.
Qed.

Lemma tryCatch_fulfilled_gives_success_witness :
  ∃ st2,
    run one_promise [EvCall 0; EvSettle 0 (Fulfilled (VStr "user"))] = Some st2 ∧
    ∃ st3 o,
      completes st2 1 st3 ∧ returned st3 1 = Some o ∧
      o = Success (VStr "user") ∧ data_of o = VStr "user" ∧ error_of o = VNull.
Proof.
  eexists. split; [reflexivity|].
  eapply (tryCatch_fulfilled_gives_success one_promise _ _ 0
           [EvSettle 0 (Fulfilled (VStr "user"))] (VStr "user")).
  - exact one_promise_reachable.
  - reflexivity.
  - reflexivity.
  - reflexivity.
Defined.

(** C2. When the promise passed to [tryCatch] is rejected with a value [e],
    the call completes and the caller holds the failure literal: its
    [error] field is [e] itself, its [data] field is [null], and when [e] is
    a reference the object it refers to is the one it was, at the same
    location and with the same contents. *)
Theorem tryCatch_rejected_gives_failure
    (st st1 st2 : state) (p : loc) (evs : list event) (e : value) :
  reachable st →
  step st (EvCall p) = Some st1 →
  run st1 evs = Some st2 →
  st_heap st2 !! p = Some (CPromise (Settled (Rejected e))) →
  ∃ st3 o,
    completes st2 (call_result st) st3 ∧
    returned st3 (call_result st) = Some o ∧
    o = Failure e ∧ error_of o = e ∧ data_of o = VNull ∧
    ∀ l c, e = VRef l → st_heap st2 !! l = Some (CObject c) →
           st_heap st3 !! l = Some (CObject c).
Proof.
  intros Hr Hcall Hrun Hp. apply reachable_wf in Hr.
  destruct (call_invariant _ _ _ _ _ Hr Hcall Hrun) as [Hwf Hc].
  destruct (call_completes _ _ _ _ Hwf Hc Hp) as (st3 & Hcomp & Hret & Hfp & _).
  apply result_footprint_extends in Hfp as [[_ Hext] _].
  exists st3, (Failure e). split_and!; try done.
  intros l c _ Hl. by apply Hext.
Qed.

Lemma tryCatch_rejected_gives_failure_witness :
  ∃ st2,
    run promise_and_error [EvCall 0; EvSettle 0 (Rejected (VRef 1))] = Some st2 ∧
    ∃ st3 o,
      completes st2 2 st3 ∧ returned st3 2 = Some o ∧
      o = Failure (VRef 1) ∧ error_of o = VRef 1 ∧ data_of o = VNull ∧
      ∀ l c, VRef 1 = VRef l → st_heap st2 !! l = Some (CObject c) →
             st_heap st3 !! l = Some (CObject c).
Proof.
  eexists. split; [reflexivity|].
  eapply (tryCatch_rejected_gives_failure promise_and_error _ _ 0
           [EvSettle 0 (Rejected (VRef 1))] (VRef 1)).
  - exact promise_and_error_reachable.
  - reflexivity.
  - reflexivity.
  - reflexivity.
Defined.

(** C3. A call of [tryCatch] on a promise never raises: the call itself
    returns a promise, and whatever happens afterwards the caller's [await]
    on that promise never throws; a rejection of the argument with [e] is
    caught and comes back as the failure literal for [e]. *)
Theorem tryCatch_never_raises (st : state) (p : loc) (ps : pstate) :
  reachable st →
  st_heap st !! p = Some (CPromise ps) →
  ∃ st1,
    step st (EvCall p) = Some st1 ∧
    ∀ evs st2, run st1 evs = Some st2 →
      (∀ e, await_result st2 (call_result st) ≠ Some (Raised e)) ∧
      (∀ e, st_heap st2 !! p = Some (CPromise (Settled (Rejected e))) →
            ∃ st3, completes st2 (call_result st) st3 ∧
                   returned st3 (call_result st) = Some (Failure e) ∧
                   ∀ e', await_result st3 (call_result st) ≠ Some (Raised e')).
Proof.
  intros Hr Hp. apply reachable_wf in Hr.
  assert (∃ st1, step st (EvCall p) = Some st1) as [st1 Hcall].
  { simpl. rewrite Hp. eauto. }
  exists st1. split; [done|]. intros evs st2 Hrun.
  destruct (call_invariant _ _ _ _ _ Hr Hcall Hrun) as [Hwf Hc]. split.
  - intros e. by apply (call_not_raised _ _ p).
  - intros e He.
    destruct (call_completes _ _ _ _ Hwf Hc He) as (st3 & Hcomp & Hret & _).
    exists st3. split_and!; try done.
    intros e'. unfold returned in Hret. unfold await_result.
    destruct (st_heap st3 !! call_result st) as [[|[|[|]]]|]; done.
Qed.

Lemma tryCatch_never_raises_witness :
  ∃ st1,
    step promise_and_error (EvCall 0) = Some st1 ∧
    ∀ evs st2, run st1 evs = Some st2 →
      (∀ e, await_result st2 2 ≠ Some (Raised e)) ∧
      (∀ e, st_heap st2 !! 0 = Some (CPromise (Settled (Rejected e))) →
            ∃ st3, completes st2 2 st3 ∧ returned st3 2 = Some (Failure e) ∧
                   ∀ e', await_result st3 2 ≠ Some (Raised e')).
Proof.
  apply (tryCatch_never_raises promise_and_error 0 Pending).
  - exact promise_and_error_reachable.
  - reflexivity.
Defined.

(** C4, as amended.  In every result of [tryCatch] at least one of [data]
    and [error] is [null]; exactly one of them is populated precisely when
    the value the argument settled with is not [null]. *)
Theorem tryCatch_result_discriminant
    (st st1 st2 : state) (p : loc) (evs : list event) (o : object) :
  reachable st →
  step st (EvCall p) = Some st1 →
  run st1 evs = Some st2 →
  returned st2 (call_result st) = Some o →
  populated (data_of o) && populated (error_of o) = false ∧
  ∃ s, st_heap st2 !! p = Some (CPromise (Settled s)) ∧
       exactly_one_populated o = populated (settled_value s).
Proof.
  intros Hr Hcall Hrun Hret. apply reachable_wf in Hr.
  destruct (call_invariant _ _ _ _ _ Hr Hcall Hrun) as [Hwf Hc].
  destruct (call_returned _ _ _ _ Hwf Hc Hret) as (s & Hs & ->).
  split.
  - destruct s as [v|e]; simpl; [apply andb_false_r|done].
  - exists s. split; [done|].
    destruct s as [v|e]; unfold exactly_one_populated; simpl.
    + apply xorb_false_r.
    + done.
Qed.

Lemma tryCatch_result_discriminant_witness :
  ∃ st2 o,
    run one_promise [EvCall 0; EvSettle 0 (Rejected (VStr "oops")); EvResume 0]
    = Some st2 ∧
    returned st2 1 = Some o ∧
    populated (data_of o) && populated (error_of o) = false ∧
    ∃ s, st_heap st2 !! 0 = Some (CPromise (Settled s)) ∧
         exactly_one_populated o = populated (settled_value s).
Proof.
  eexists _, _. split; [reflexivity|]. split; [reflexivity|].
  eapply (tryCatch_result_discriminant one_promise _ _ 0
            [EvSettle 0 (Rejected (VStr "oops")); EvResume 0]).
  - exact one_promise_reachable.
  - reflexivity.
  - reflexivity.
  - reflexivity.
Defined.

(** C4, as stated, fails: a promise fulfilled with [null] gives the result
    [{ data: null, error: null }], in which both fields are absent. *)
Lemma tryCatch_both_absent :
  ∃ st2,
    run init [EvNewPromise; EvCall 0; EvSettle 0 (Fulfilled VNull); EvResume 0]
    = Some st2 ∧
    returned st2 1 = Some (literal [("data", VNull); ("error", VNull)]) ∧
    populated (data_of (literal [("data", VNull); ("error", VNull)])) = false ∧
    populated (error_of (literal [("data", VNull); ("error", VNull)])) = false ∧
    exactly_one_populated (literal [("data", VNull); ("error", VNull)]) = false.
Proof. eexists. by split_and!. Qed.

(** C5. A promise rejected with [null] gives [{ data: null, error: null }],
    the very object contents a promise fulfilled with [null] gives, and the
    documented test on the truthiness of [error] takes the success branch. *)
Theorem tryCatch_rejected_null_reads_as_success
    (st st1 st2 : state) (p : loc) (evs : list event)
    (st' st1' st2' : state) (p' : loc) (evs' : list event) :
  reachable st →
  step st (EvCall p) = Some st1 →
  run st1 evs = Some st2 →
  st_heap st2 !! p = Some (CPromise (Settled (Rejected VNull))) →
  reachable st' →
  step st' (EvCall p') = Some st1' →
  run st1' evs' = Some st2' →
  st_heap st2' !! p' = Some (CPromise (Settled (Fulfilled VNull))) →
  ∃ st3 st3' o,
    completes st2 (call_result st) st3 ∧
    returned st3 (call_result st) = Some o ∧
    completes st2' (call_result st') st3' ∧
    returned st3' (call_result st') = Some o ∧
    o = literal [("data", VNull); ("error", VNull)] ∧
    documented_check o = SuccessBranch.
Proof.
  intros Hr Hcall Hrun Hp Hr' Hcall' Hrun' Hp'.
  apply reachable_wf in Hr. apply reachable_wf in Hr'.
  destruct (call_invariant _ _ _ _ _ Hr Hcall Hrun) as [Hwf Hc].
  destruct (call_invariant _ _ _ _ _ Hr' Hcall' Hrun') as [Hwf' Hc'].
  destruct (call_completes _ _ _ _ Hwf Hc Hp) as (st3 & Hcomp & Hret & _).
  destruct (call_completes _ _ _ _ Hwf' Hc' Hp') as (st3' & Hcomp' & Hret' & _).
  exists st3, st3', (Failure VNull). by split_and!.
Qed.

Lemma tryCatch_rejected_null_reads_as_success_witness :
  ∃ st2 st2',
    run one_promise [EvCall 0; EvSettle 0 (Rejected VNull)] = Some st2 ∧
    run one_promise [EvCall 0; EvSettle 0 (Fulfilled VNull)] = Some st2' ∧
    ∃ st3 st3' o,
      completes st2 1 st3 ∧ returned st3 1 = Some o ∧
      completes st2' 1 st3' ∧ returned st3' 1 = Some o ∧
      o = literal [("data", VNull); ("error", VNull)] ∧
      documented_check o = SuccessBranch.
Proof.
  eexists _, _. split; [reflexivity|]. split; [reflexivity|].
  eapply (tryCatch_rejected_null_reads_as_success
            one_promise _ _ 0 [EvSettle 0 (Rejected VNull)]
            one_promise _ _ 0 [EvSettle 0 (Fulfilled VNull)]).
  - exact one_promise_reachable.
  - reflexivity.
  - reflexivity.
  - reflexivity.
  - exact one_promise_reachable.
  - reflexivity.
  - reflexivity.
  - reflexivity.
Defined.

(** C6. A rejection value that is not an error-like object (a primitive such
    as ["oops"] or [null], or a reference to anything but an [Error]
    instance) comes back in the [error] field as it is: the call allocates
    at most its one result literal, and the value in the [error] field is
    still not error-like. *)
Theorem tryCatch_surfaces_non_error
    (st st1 st2 : state) (p : loc) (evs : list event) (e : value) :
  reachable st →
  step st (EvCall p) = Some st1 →
  run st1 evs = Some st2 →
  st_heap st2 !! p = Some (CPromise (Settled (Rejected e))) →
  error_like (st_heap st2) e = false →
  ∃ st3 o,
    completes st2 (call_result st) st3 ∧
    returned st3 (call_result st) = Some o ∧
    o = Failure e ∧ error_of o = e ∧
    error_like (st_heap st3) (error_of o) = false ∧
    length (st_heap st3) ≤ S (length (st_heap st2)).
Proof.
  intros Hr Hcall Hrun Hp Hne. apply reachable_wf in Hr.
  destruct (call_invariant _ _ _ _ _ Hr Hcall Hrun) as [Hwf Hc].
  destruct (call_completes _ _ _ _ Hwf Hc Hp) as (st3 & Hcomp & Hret & Hfp & _).
  exists st3, (Failure e). split_and!; try done.
  - change (error_of (Failure e)) with e.
    by rewrite (result_footprint_error_like _ _ _ _ e Hfp).
  - by apply result_footprint_extends in Hfp as [_ ?].
Qed.

Lemma tryCatch_surfaces_non_error_witness :
  ∃ st2,
    run one_promise [EvCall 0; EvSettle 0 (Rejected (VStr "oops"))] = Some st2 ∧
    ∃ st3 o,
      completes st2 1 st3 ∧ returned st3 1 = Some o ∧
      o = Failure (VStr "oops") ∧ error_of o = VStr "oops" ∧
      error_like (st_heap st3) (error_of o) = false ∧
      length (st_heap st3) ≤ S (length (st_heap st2)).
Proof.
  eexists. split; [reflexivity|].
  eapply (tryCatch_surfaces_non_error one_promise _ _ 0
            [EvSettle 0 (Rejected (VStr "oops"))] (VStr "oops")).
  - exact one_promise_reachable.
  - reflexivity.
  - reflexivity.
  - reflexivity.
  - reflexivity.
Defined.

(** C7. A promise fulfilled with [undefined] is a success: the result is
    [{ data: undefined, error: null }], its [error] field holds the absent
    marker, and the documented test takes the success branch. *)
Theorem tryCatch_fulfilled_undefined
    (st st1 st2 : state) (p : loc) (evs : list event) :
  reachable st →
  step st (EvCall p) = Some st1 →
  run st1 evs = Some st2 →
  st_heap st2 !! p = Some (CPromise (Settled (Fulfilled VUndefined))) →
  ∃ st3 o,
    completes st2 (call_result st) st3 ∧
    returned st3 (call_result st) = Some o ∧
    o = literal [("data", VUndefined); ("error", VNull)] ∧
    data_of o = VUndefined ∧ error_of o = VNull ∧
    documented_check o = SuccessBranch.
Proof.
  intros Hr Hcall Hrun Hp. apply reachable_wf in Hr.
  destruct (call_invariant _ _ _ _ _ Hr Hcall Hrun) as [Hwf Hc].
  destruct (call_completes _ _ _ _ Hwf Hc Hp) as (st3 & Hcomp & Hret & _).
  exists st3, (Success VUndefined). by split_and!.
Qed.

Lemma tryCatch_fulfilled_undefined_witness :
  ∃ st2,
    run one_promise [EvCall 0; EvSettle 0 (Fulfilled VUndefined)] = Some st2 ∧
    ∃ st3 o,
      completes st2 1 st3 ∧ returned st3 1 = Some o ∧
      o = literal [("data", VUndefined); ("error", VNull)] ∧
      data_of o = VUndefined ∧ error_of o = VNull ∧
      documented_check o = SuccessBranch.
Proof.
  eexists. split; [reflexivity|].
  eapply (tryCatch_fulfilled_undefined one_promise _ _ 0
            [EvSettle 0 (Fulfilled VUndefined)]).
  - exact one_promise_reachable.
  - reflexivity.
  - reflexivity.
  - reflexivity.
Defined.

(** C8. Two calls in flight together, one on a promise that is fulfilled
    with [v] and one on a promise that is rejected with [e], under any order
    of the events that follow: each call gives what it gives in a run that
    has this call only, the success literal of [v] for the first and the
    failure literal of [e] for the second. *)
Theorem tryCatch_concurrent_calls_independent
    (st : state) (p1 p2 : loc) (v e : value)
    (both alone1 alone2 : list event) (st_both st_alone1 st_alone2 : state) :
  reachable st →
  run st (EvCall p1 :: EvCall p2 :: both) = Some st_both →
  run st (EvCall p1 :: alone1) = Some st_alone1 →
  run st (EvCall p2 :: alone2) = Some st_alone2 →
  st_heap st_both !! p1 = Some (CPromise (Settled (Fulfilled v))) →
  st_heap st_both !! p2 = Some (CPromise (Settled (Rejected e))) →
  st_heap st_alone1 !! p1 = Some (CPromise (Settled (Fulfilled v))) →
  st_heap st_alone2 !! p2 = Some (CPromise (Settled (Rejected e))) →
  ∃ st_both1 st_both2 st_alone1' st_alone2',
    completes st_both (call_result st) st_both1 ∧
    completes st_both (S (call_result st)) st_both2 ∧
    completes st_alone1 (call_result st) st_alone1' ∧
    completes st_alone2 (call_result st) st_alone2' ∧
    returned st_both1 (call_result st) = Some (Success v) ∧
    returned st_alone1' (call_result st) = Some (Success v) ∧
    returned st_both2 (S (call_result st)) = Some (Failure e) ∧
    returned st_alone2' (call_result st) = Some (Failure e).
Proof.
  intros Hr Hboth Halone1 Halone2 Hb1 Hb2 Ha1 Ha2. apply reachable_wf in Hr.
  apply run_cons_inv in Hboth as (st1 & Hcall1 & Hrun1).
  pose proof Hrun1 as (st12 & Hcall12 & Hboth)%run_cons_inv.
  apply run_cons_inv in Halone1 as (st1' & Hcall1' & Halone1).
  apply run_cons_inv in Halone2 as (st2 & Hcall2 & Halone2).
  assert (st1' = st1) as -> by congruence.
  destruct (step_wf_extends _ _ _ Hr Hcall1) as [Hwf1 _].
  assert (call_result st1 = S (call_result st)) as Hq2.
  { apply call_starts in Hcall1 as [Hh _]. unfold call_result.
    rewrite Hh, length_app. simpl. lia. }
  destruct (call_invariant _ _ _ _ _ Hr Hcall1 Hrun1) as [Hwfb Hcb1].
  destruct (call_invariant _ _ _ _ _ Hwf1 Hcall12 Hboth) as [_ Hcb2].
  rewrite Hq2 in Hcb2.
  destruct (call_invariant _ _ _ _ _ Hr Hcall1 Halone1) as [Hwfa1 Hca1].
  destruct (call_invariant _ _ _ _ _ Hr Hcall2 Halone2) as [Hwfa2 Hca2].
  destruct (call_completes _ _ _ _ Hwfb Hcb1 Hb1) as (s1 & ? & ? & _).
  destruct (call_completes _ _ _ _ Hwfb Hcb2 Hb2) as (s2 & ? & ? & _).
  destruct (call_completes _ _ _ _ Hwfa1 Hca1 Ha1) as (s3 & ? & ? & _).
  destruct (call_completes _ _ _ _ Hwfa2 Hca2 Ha2) as (s4 & ? & ? & _).
  exists s1, s2, s3, s4. by split_and!.
Qed.

Lemma two_promises_reachable : reachable two_promises.
Proof. by exists [EvNewPromise; EvNewPromise]. Qed.

Lemma tryCatch_concurrent_calls_independent_witness :
  ∃ st_both st_alone1 st_alone2,
    run two_promises
        [EvCall 0; EvCall 1; EvSettle 1 (Rejected (VStr "oops"));
         EvSettle 0 (Fulfilled (VBool true)); EvResume 1]
    = Some st_both ∧
    run two_promises [EvCall 0; EvSettle 0 (Fulfilled (VBool true)); EvResume 0]
    = Some st_alone1 ∧
    run two_promises [EvCall 1; EvSettle 1 (Rejected (VStr "oops"))]
    = Some st_alone2 ∧
    ∃ st_both1 st_both2 st_alone1' st_alone2',
      completes st_both 2 st_both1 ∧
      completes st_both 3 st_both2 ∧
      completes st_alone1 2 st_alone1' ∧
      completes st_alone2 2 st_alone2' ∧
      returned st_both1 2 = Some (Success (VBool true)) ∧
      returned st_alone1' 2 = Some (Success (VBool true)) ∧
      returned st_both2 3 = Some (Failure (VStr "oops")) ∧
      returned st_alone2' 2 = Some (Failure (VStr "oops")).
Proof.
  eexists _, _, _. split_and!; [reflexivity..|].
  eapply (tryCatch_concurrent_calls_independent two_promises 0 1
            (VBool true) (VStr "oops")
            [EvSettle 1 (Rejected (VStr "oops"));
             EvSettle 0 (Fulfilled (VBool true)); EvResume 1]
            [EvSettle 0 (Fulfilled (VBool true)); EvResume 0]
            [EvSettle 1 (Rejected (VStr "oops"))]).
  - exact two_promises_reachable.
  - reflexivity.
  - reflexivity.
  - reflexivity.
  - reflexivity.
  - reflexivity.
  - reflexivity.
  - reflexivity.
Defined.

(** C9, as amended.  A result of [tryCatch] is not written to after its
    construction by the call, nor by any other call, settlement or job: at
    any later time, reading its [data] and [error] fields gives the pair that
    the settlement of the argument determined, however often it is repeated.
    The result is an ordinary writable object all the same: an assignment by
    its holder to [data] or to [error] goes through, and the next reading
    shows the assigned value. *)
Theorem tryCatch_result_unchanged_until_assigned
    (st st1 st2 st3 : state) (p : loc) (evs later : list event) (o : object)
    (n : nat) :
  reachable st →
  step st (EvCall p) = Some st1 →
  run st1 evs = Some st2 →
  returned st2 (call_result st) = Some o →
  run st2 later = Some st3 →
  (∃ s, st_heap st2 !! p = Some (CPromise (Settled s)) ∧
        data_of o = match s with Fulfilled v => v | Rejected _ => VNull end ∧
        error_of o = match s with Fulfilled _ => VNull | Rejected e => e end) ∧
  inspect st3 (call_result st) = (st3, Some (data_of o, error_of o)) ∧
  inspections n st3 (call_result st)
  = (st3, replicate n (Some (data_of o, error_of o))) ∧
  ∃ l, await_result st3 (call_result st) = Some (Value (VRef l)) ∧
       ∀ v, ∃ st4 st4',
         assign st3 l "data" v = Some st4 ∧
         inspect st4 (call_result st) = (st4, Some (v, error_of o)) ∧
         assign st3 l "error" v = Some st4' ∧
         inspect st4' (call_result st) = (st4', Some (data_of o, v)).
Proof.
  intros Hr Hcall Hrun Hret Hlater. apply reachable_wf in Hr.
  destruct (call_invariant _ _ _ _ _ Hr Hcall Hrun) as [Hwf Hc].
  destruct (call_returned _ _ _ _ Hwf Hc Hret) as (s & Hs & Ho).
  pose proof (returned_stable _ _ _ _ _ Hwf Hlater Hret) as Hret3.
  assert (Hi : inspect st3 (call_result st)
               = (st3, Some (data_of o, error_of o))).
  { unfold inspect. by rewrite Hret3. }
  split; [|split; [done|split]].
  - exists s. rewrite Ho. by destruct s.
  - clear -Hi. induction n as [|n IH]; simpl; [done|].
    unfold inspect in Hi, IH |- *. injection Hi as Hi. by rewrite Hi, IH.
  - destruct (returned_settled _ _ _ Hret3) as (l & Hq & Hl).
    exists l. split; [unfold await_result; by rewrite Hq|]. intros v.
    destruct (assign_returned _ _ _ "data" v Hret3)
      as (l1 & st4 & Hl1%await_value & Ha & Hr4).
    destruct (assign_returned _ _ _ "error" v Hret3)
      as (l2 & st4' & Hl2%await_value & Ha' & Hr4').
    assert (l1 = l) as -> by congruence.
    assert (l2 = l) as -> by congruence.
    exists st4, st4'. unfold inspect. rewrite Ha, Ha', Hr4, Hr4', Ho.
    by destruct s.
Qed.

Lemma tryCatch_result_unchanged_until_assigned_witness :
  ∃ st2 st3,
    run one_promise [EvCall 0; EvSettle 0 (Fulfilled (VStr "user")); EvResume 0]
    = Some st2 ∧
    run st2 [EvNewPromise; EvCall 3; EvSettle 3 (Rejected VNull); EvResume 0]
    = Some st3 ∧
    (∃ s, st_heap st2 !! 0 = Some (CPromise (Settled s)) ∧
          VStr "user" = match s with Fulfilled v => v | Rejected _ => VNull end ∧
          VNull = match s with Fulfilled _ => VNull | Rejected e => e end) ∧
    inspect st3 1 = (st3, Some (VStr "user", VNull)) ∧
    inspections 3 st3 1 = (st3, replicate 3 (Some (VStr "user", VNull))) ∧
    ∃ l, await_result st3 1 = Some (Value (VRef l)) ∧
         ∀ v, ∃ st4 st4',
           assign st3 l "data" v = Some st4 ∧
           inspect st4 1 = (st4, Some (v, VNull)) ∧
           assign st3 l "error" v = Some st4' ∧
           inspect st4' 1 = (st4', Some (VStr "user", v)).
Proof.
  eexists _, _. split; [reflexivity|]. split; [reflexivity|].
  eapply (tryCatch_result_unchanged_until_assigned one_promise _ _ _ 0
            [EvSettle 0 (Fulfilled (VStr "user")); EvResume 0]
            [EvNewPromise; EvCall 3; EvSettle 3 (Rejected VNull); EvResume 0]
            (Success (VStr "user")) 3).
  - exact one_promise_reachable.
  - reflexivity.
  - reflexivity.
  - reflexivity.
  - reflexivity.
Defined.

(** C9, as stated, fails: the result is not immutable.  After the promise is
    fulfilled with ["user"] the result reads [("user", null)] and the
    documented test takes the success branch; the holder then assigns
    [result.error = "x"], and the same result reads [("user", "x")] and the
    documented test takes the failure branch. *)
Lemma tryCatch_result_not_immutable :
  ∃ st2 st3,
    run init [EvNewPromise; EvCall 0; EvSettle 0 (Fulfilled (VStr "user"));
              EvResume 0]
    = Some st2 ∧
    await_result st2 1 = Some (Value (VRef 2)) ∧
    inspect st2 1 = (st2, Some (VStr "user", VNull)) ∧
    (documented_check <$> returned st2 1) = Some SuccessBranch ∧
    assign st2 2 "error" (VStr "x") = Some st3 ∧
    inspect st3 1 = (st3, Some (VStr "user", VStr "x")) ∧
    (documented_check <$> returned st3 1) = Some FailureBranch.
Proof. eexists _, _. by split_and!. Qed.

(** C10. A call of [tryCatch] on a promise that settles terminates.  The body
    suspends exactly once on every path, at the [await] on its argument, and
    both continuations, the one for a fulfilment and the one for a
    rejection, run to a [return] without suspending again.  So the call is
    suspended when it starts and stays so while its argument is pending, and
    once its argument has settled it completes at once or with the next job,
    with the literal of the settlement, and no coroutine of it remains. *)
Theorem tryCatch_terminates
    (st st1 st2 : state) (p : loc) (evs : list event) (s : settlement) :
  reachable st →
  step st (EvCall p) = Some st1 →
  run st1 evs = Some st2 →
  st_heap st2 !! p = Some (CPromise (Settled s)) →
  (∀ h settles, suspensions h settles (tryCatch p) = 1) ∧
  (∃ kf kr,
     (∀ h, exec h (tryCatch p) = (h, Suspended p kf kr)) ∧
     (∀ h v, ∃ h' r, exec h (kf v) = (h', Finished (Fulfilled r))) ∧
     (∀ h e, ∃ h' r, exec h (kr e) = (h', Finished (Fulfilled r)))) ∧
  await_result st1 (call_result st) = Some StillPending ∧
  (∀ evs' st', run st1 evs' = Some st' →
     st_heap st' !! p = Some (CPromise Pending) →
     await_result st' (call_result st) = Some StillPending) ∧
  ∃ st3,
    completes st2 (call_result st) st3 ∧
    returned st3 (call_result st)
    = Some match s with
           | Fulfilled v => Success v
           | Rejected e => Failure e
           end ∧
    ∀ t, t ∈ st_tasks st3 → t_out t ≠ call_result st.
Proof.
  intros Hr Hcall Hrun Hp. apply reachable_wf in Hr.
  destruct (call_invariant _ _ _ _ _ Hr Hcall Hrun) as [Hwf Hc].
  split_and!.
  - intros h settles. simpl. by destruct (settles p).
  - eexists _, _. split_and!.
    + intros h. reflexivity.
    + intros h v. by eexists _, _.
    + intros h e. by eexists _, _.
  - apply call_starts in Hcall as [Hh _]. unfold await_result, call_result.
    rewrite Hh, lookup_app_r by lia. by rewrite Nat.sub_diag.
  - intros evs' st' Hrun' Hpend.
    destruct (call_invariant _ _ _ _ _ Hr Hcall Hrun') as [Hwf' Hc'].
    by apply (call_suspended _ _ p).
  - destruct (call_completes _ _ _ _ Hwf Hc Hp) as (st3 & Hcomp & Hret & _ & Ht).
    exists st3. by split_and!.
Qed.

Lemma tryCatch_terminates_witness :
  ∃ st1 st2,
    step promise_and_error (EvCall 0) = Some st1 ∧
    run st1 [EvNewPromise; EvSettle 0 (Rejected (VRef 1))] = Some st2 ∧
    (∀ h settles, suspensions h settles (tryCatch 0) = 1) ∧
    (∃ kf kr,
       (∀ h, exec h (tryCatch 0) = (h, Suspended 0 kf kr)) ∧
       (∀ h v, ∃ h' r, exec h (kf v) = (h', Finished (Fulfilled r))) ∧
       (∀ h e, ∃ h' r, exec h (kr e) = (h', Finished (Fulfilled r)))) ∧
    await_result st1 2 = Some StillPending ∧
    (∀ evs' st', run st1 evs' = Some st' →
       st_heap st' !! 0 = Some (CPromise Pending) →
       await_result st' 2 = Some StillPending) ∧
    ∃ st3,
      completes st2 2 st3 ∧
      returned st3 2 = Some (Failure (VRef 1)) ∧
      ∀ t, t ∈ st_tasks st3 → t_out t ≠ 2.
Proof.
  eexists _, _. split; [reflexivity|]. split; [reflexivity|].
  eapply (tryCatch_terminates promise_and_error _ _ 0
            [EvNewPromise; EvSettle 0 (Rejected (VRef 1))]
            (Rejected (VRef 1))).
  - exact promise_and_error_reachable.
  - reflexivity.
  - reflexivity.
  - reflexivity.
Defined.

(** ** Further properties of [tryCatch] *)

Lemma completes_run (st st' : state) (q : loc) :
  completes st q st' → ∃ evs, run st evs = Some st'.
Proof.
  intros [[_ ->]|[_ [i Hi]]]; [by exists []|].
  exists [EvResume i]. cbn [run]. by rewrite Hi.
Qed.

(** Completing one call leaves every other call waiting or done. *)
Lemma completes_keeps (st st' : state) (q q' p' : loc) :
  wf st → completes st q st' → call_state st q' p' →
  wf st' ∧ call_state st' q' p' ∧ extends (st_heap st) (st_heap st').
Proof.
  intros Hwf [evs Hrun]%completes_run Hc.
  destruct (run_wf_extends _ _ _ Hwf Hrun) as [Hwf' Hext].
  split; [done|]. split; [|done].
  exact (call_state_run evs q' p' st st' Hwf Hrun Hc).
Qed.

(** Two calls whose arguments have settled complete one after the other. *)
Lemma two_calls_complete (st : state) (q1 p1 q2 p2 : loc) (s1 s2 : settlement) :
  wf st → call_state st q1 p1 → call_state st q2 p2 →
  st_heap st !! p1 = Some (CPromise (Settled s1)) →
  st_heap st !! p2 = Some (CPromise (Settled s2)) →
  ∃ st3 st4,
    completes st q1 st3 ∧ completes st3 q2 st4 ∧
    returned st4 q1 = Some (outcome s1) ∧ returned st4 q2 = Some (outcome s2).
Proof.
  intros Hwf Hc1 Hc2 Hp1 Hp2.
  destruct (call_completes _ _ _ _ Hwf Hc1 Hp1) as (st3 & Hcomp1 & Hret1 & _).
  destruct (completes_keeps _ _ _ _ _ Hwf Hcomp1 Hc2) as (Hwf3 & Hc2' & [_ Hext]).
  pose proof (Hext _ _ Hp2 eq_refl) as Hp2'.
  destruct (call_completes _ _ _ _ Hwf3 Hc2' Hp2') as (st4 & Hcomp2 & Hret2 & _).
  exists st3, st4. split_and!; try done.
  destruct (completes_run _ _ _ Hcomp2) as [evs Hrun].
  by eapply returned_stable.
Qed.

(** X1. The documented test [if (result.error)] on the result of a call:
    after a fulfilment it takes the success branch; after a rejection with
    [e] it takes the failure branch exactly when [e] is truthy.  When it takes
    the success branch, [result.data] is the fulfilment value, or [null]
    after a rejection with a falsy value. *)
Theorem documented_check_classifies
    (st st1 st2 : state) (p : loc) (evs : list event) (s : settlement) :
  reachable st →
  step st (EvCall p) = Some st1 →
  run st1 evs = Some st2 →
  st_heap st2 !! p = Some (CPromise (Settled s)) →
  ∃ st3 o,
    completes st2 (call_result st) st3 ∧
    returned st3 (call_result st) = Some o ∧
    documented_check o
    = match s with
      | Fulfilled _ => SuccessBranch
      | Rejected e => if truthy e then FailureBranch else SuccessBranch
      end ∧
    (documented_check o = SuccessBranch →
     data_of o = match s with Fulfilled v => v | Rejected _ => VNull end).
Proof.
  intros Hr Hcall Hrun Hp. apply reachable_wf in Hr.
  destruct (call_invariant _ _ _ _ _ Hr Hcall Hrun) as [Hwf Hc].
  destruct (call_completes _ _ _ _ Hwf Hc Hp) as (st3 & Hcomp & Hret & _).
  exists st3, (outcome s). split_and!; try done; by destruct s.
Qed.

Lemma documented_check_classifies_witness :
  ∃ st2,
    run one_promise [EvCall 0; EvSettle 0 (Rejected (VNum (S754_zero false)))]
    = Some st2 ∧
    ∃ st3 o,
      completes st2 1 st3 ∧ returned st3 1 = Some o ∧
      documented_check o = SuccessBranch ∧
      (documented_check o = SuccessBranch → data_of o = VNull).
Proof.
  eexists. split; [reflexivity|].
  eapply (documented_check_classifies one_promise _ _ 0
            [EvSettle 0 (Rejected (VNum (S754_zero false)))]
            (Rejected (VNum (S754_zero false)))).
  - exact one_promise_reachable.
  - reflexivity.
  - reflexivity.
  - reflexivity.
Defined.

(** X3. Every result of [tryCatch] is a plain object, not an [Error]
    instance, with exactly the two own properties [data] and [error], in
    that order, whichever branch produced it. *)
Theorem tryCatch_result_keys
    (st st1 st2 : state) (p : loc) (evs : list event) (o : object) :
  reachable st →
  step st (EvCall p) = Some st1 →
  run st1 evs = Some st2 →
  returned st2 (call_result st) = Some o →
  (o_props o).*1 = ["data"; "error"] ∧ o_error_data o = false ∧
  o_props o = [("data", data_of o); ("error", error_of o)].
Proof.
  intros Hr Hcall Hrun Hret. apply reachable_wf in Hr.
  destruct (call_invariant _ _ _ _ _ Hr Hcall Hrun) as [Hwf Hc].
  destruct (call_returned _ _ _ _ Hwf Hc Hret) as (s & _ & ->).
  by destruct s.
Qed.

Lemma tryCatch_result_keys_witness :
  ∃ st2 o,
    run one_promise [EvCall 0; EvSettle 0 (Fulfilled VUndefined); EvResume 0]
    = Some st2 ∧
    returned st2 1 = Some o ∧
    (o_props o).*1 = ["data"; "error"] ∧ o_error_data o = false ∧
    o_props o = [("data", data_of o); ("error", error_of o)].
Proof.
  eexists _, _. split; [reflexivity|]. split; [reflexivity|].
  eapply (tryCatch_result_keys one_promise _ _ 0
            [EvSettle 0 (Fulfilled VUndefined); EvResume 0]).
  - exact one_promise_reachable.
  - reflexivity.
  - reflexivity.
  - reflexivity.
Defined.

(** X4. The result tells how the argument settled, with one exception: two
    calls that return results with the same contents had arguments that
    settled the same way with the same value, unless one was fulfilled with
    [null] and the other rejected with [null]. *)
Theorem tryCatch_result_determines_settlement
    (st st1 st2 : state) (p : loc) (evs : list event)
    (st' st1' st2' : state) (p' : loc) (evs' : list event) (o : object) :
  reachable st →
  step st (EvCall p) = Some st1 →
  run st1 evs = Some st2 →
  returned st2 (call_result st) = Some o →
  reachable st' →
  step st' (EvCall p') = Some st1' →
  run st1' evs' = Some st2' →
  returned st2' (call_result st') = Some o →
  ∃ s s',
    st_heap st2 !! p = Some (CPromise (Settled s)) ∧
    st_heap st2' !! p' = Some (CPromise (Settled s')) ∧
    (s = s' ∨ (settled_value s = VNull ∧ settled_value s' = VNull)).
Proof.
  intros Hr Hcall Hrun Hret Hr' Hcall' Hrun' Hret'.
  apply reachable_wf in Hr. apply reachable_wf in Hr'.
  destruct (call_invariant _ _ _ _ _ Hr Hcall Hrun) as [Hwf Hc].
  destruct (call_invariant _ _ _ _ _ Hr' Hcall' Hrun') as [Hwf' Hc'].
  destruct (call_returned _ _ _ _ Hwf Hc Hret) as (s & Hs & ->).
  destruct (call_returned _ _ _ _ Hwf' Hc' Hret') as (s' & Hs' & Heq).
  exists s, s'. split_and!; try done.
  destruct s as [v|e], s' as [v'|e']; simpl in Heq; unfold Success, Failure,
    literal in Heq; simplify_eq; auto.
Qed.

Lemma tryCatch_result_determines_settlement_witness :
  ∃ st2 st2',
    run one_promise [EvCall 0; EvSettle 0 (Rejected (VStr "oops")); EvResume 0]
    = Some st2 ∧
    run two_promises [EvCall 1; EvSettle 1 (Rejected (VStr "oops")); EvResume 0]
    = Some st2' ∧
    ∃ s s',
      st_heap st2 !! 0 = Some (CPromise (Settled s)) ∧
      st_heap st2' !! 1 = Some (CPromise (Settled s')) ∧
      (s = s' ∨ (settled_value s = VNull ∧ settled_value s' = VNull)).
Proof.
  eexists _, _. split; [reflexivity|]. split; [reflexivity|].
  eapply (tryCatch_result_determines_settlement
            one_promise _ _ 0 [EvSettle 0 (Rejected (VStr "oops")); EvResume 0]
            two_promises _ _ 1 [EvSettle 1 (Rejected (VStr "oops")); EvResume 0]
            (Failure (VStr "oops"))).
  - exact one_promise_reachable.
  - reflexivity.
  - reflexivity.
  - reflexivity.
  - exact two_promises_reachable.
  - reflexivity.
  - reflexivity.
  - reflexivity.
Defined.

(** X5. Wrapping a call in a second call, [tryCatch(tryCatch(p))], always
    succeeds: however [p] settles, the outer result is the success literal
    whose [data] is the inner result object, and that object is the literal
    of the settlement of [p]. *)
Theorem tryCatch_nested_succeeds
    (st st1 st2 st3 : state) (p : loc) (evs : list event) (s : settlement) :
  reachable st →
  step st (EvCall p) = Some st1 →
  step st1 (EvCall (call_result st)) = Some st2 →
  run st2 evs = Some st3 →
  st_heap st3 !! p = Some (CPromise (Settled s)) →
  ∃ st4 st5 l,
    completes st3 (call_result st) st4 ∧
    completes st4 (call_result st1) st5 ∧
    returned st5 (call_result st1) = Some (Success (VRef l)) ∧
    await_result st5 (call_result st) = Some (Value (VRef l)) ∧
    st_heap st5 !! l = Some (CObject (outcome s)) ∧
    documented_check (Success (VRef l)) = SuccessBranch.
Proof.
  intros Hr Hcall1 Hcall2 Hrun Hp. apply reachable_wf in Hr.
  destruct (step_wf_extends _ _ _ Hr Hcall1) as [Hwf1 _].
  assert (Hrun1 : run st1 (EvCall (call_result st) :: evs) = Some st3).
  { cbn [run]. by rewrite Hcall2. }
  destruct (call_invariant _ _ _ _ _ Hr Hcall1 Hrun1) as [Hwf3 Hin].
  destruct (call_invariant _ _ _ _ _ Hwf1 Hcall2 Hrun) as [_ Hout].
  destruct (call_completes _ _ _ _ Hwf3 Hin Hp) as (st4 & Hcomp1 & Hret1 & _).
  destruct (returned_settled _ _ _ Hret1) as (l & Hq1 & Hl).
  destruct (completes_keeps _ _ _ _ _ Hwf3 Hcomp1 Hout) as (Hwf4 & Hout4 & _).
  destruct (call_completes _ _ _ _ Hwf4 Hout4 Hq1)
    as (st5 & Hcomp2 & Hret2 & Hfp & _).
  apply result_footprint_extends in Hfp as [[_ Hext] _].
  exists st4, st5, l. split_and!; try done.
  - unfold await_result. by rewrite (Hext _ _ Hq1 eq_refl).
  - by apply Hext.
Qed.

Lemma tryCatch_nested_succeeds_witness :
  ∃ st1 st2 st3,
    step promise_and_error (EvCall 0) = Some st1 ∧
    step st1 (EvCall 2) = Some st2 ∧
    run st2 [EvSettle 0 (Rejected (VRef 1))] = Some st3 ∧
    ∃ st4 st5 l,
      completes st3 (call_result promise_and_error) st4 ∧
      completes st4 (call_result st1) st5 ∧
      returned st5 (call_result st1) = Some (Success (VRef l)) ∧
      await_result st5 (call_result promise_and_error) = Some (Value (VRef l)) ∧
      st_heap st5 !! l = Some (CObject (outcome (Rejected (VRef 1)))) ∧
      documented_check (Success (VRef l)) = SuccessBranch.
Proof.
  eexists _, _, _. split_and!; cycle 3.
  - eapply (tryCatch_nested_succeeds promise_and_error _ _ _ 0
              [EvSettle 0 (Rejected (VRef 1))] (Rejected (VRef 1))).
    + exact promise_and_error_reachable.
    + reflexivity.
    + reflexivity.
    + reflexivity.
    + reflexivity.
  - reflexivity.
  - reflexivity.
  - reflexivity.
Defined.

(** X6. The documented test on two results, for two calls in flight
    together: [if (userResult.error || postsResult.error)] takes the failure
    branch exactly when one of the arguments was rejected with a truthy
    value.  When both arguments were fulfilled it takes the success branch
    and both [data] fields hold the fulfilment values. *)
Theorem documented_check_both_classifies
    (st st_both : state) (p1 p2 : loc) (both : list event)
    (s1 s2 : settlement) :
  reachable st →
  run st (EvCall p1 :: EvCall p2 :: both) = Some st_both →
  st_heap st_both !! p1 = Some (CPromise (Settled s1)) →
  st_heap st_both !! p2 = Some (CPromise (Settled s2)) →
  ∃ st3 st4 o1 o2,
    completes st_both (call_result st) st3 ∧
    completes st3 (S (call_result st)) st4 ∧
    returned st4 (call_result st) = Some o1 ∧
    returned st4 (S (call_result st)) = Some o2 ∧
    documented_check_both o1 o2
    = (if match s1 with Fulfilled _ => false | Rejected e => truthy e end
          || match s2 with Fulfilled _ => false | Rejected e => truthy e end
       then FailureBranch else SuccessBranch) ∧
    ∀ v1 v2, s1 = Fulfilled v1 → s2 = Fulfilled v2 →
      documented_check_both o1 o2 = SuccessBranch ∧
      data_of o1 = v1 ∧ data_of o2 = v2.
Proof.
  intros Hr Hboth Hp1 Hp2. apply reachable_wf in Hr.
  apply run_cons_inv in Hboth as (st1 & Hcall1 & Hrun1).
  pose proof Hrun1 as (st12 & Hcall12 & Hboth)%run_cons_inv.
  destruct (step_wf_extends _ _ _ Hr Hcall1) as [Hwf1 _].
  assert (call_result st1 = S (call_result st)) as Hq2.
  { apply call_starts in Hcall1 as [Hh _]. unfold call_result.
    rewrite Hh, length_app. simpl. lia. }
  destruct (call_invariant _ _ _ _ _ Hr Hcall1 Hrun1) as [Hwf Hc1].
  destruct (call_invariant _ _ _ _ _ Hwf1 Hcall12 Hboth) as [_ Hc2].
  rewrite Hq2 in Hc2.
  destruct (two_calls_complete _ _ _ _ _ _ _ Hwf Hc1 Hc2 Hp1 Hp2)
    as (st3 & st4 & ? & ? & ? & ?).
  exists st3, st4, (outcome s1), (outcome s2). split_and!; try done.
  - by destruct s1, s2.
  - by intros v1 v2 -> ->.
Qed.

Lemma documented_check_both_classifies_witness :
  ∃ st_both,
    run two_promises
        [EvCall 0; EvCall 1; EvSettle 1 (Fulfilled (VStr "posts"));
         EvSettle 0 (Fulfilled (VStr "user"))]
    = Some st_both ∧
    ∃ st3 st4 o1 o2,
      completes st_both 2 st3 ∧
      completes st3 3 st4 ∧
      returned st4 2 = Some o1 ∧
      returned st4 3 = Some o2 ∧
      documented_check_both o1 o2 = SuccessBranch ∧
      ∀ v1 v2, Fulfilled (VStr "user") = Fulfilled v1 →
               Fulfilled (VStr "posts") = Fulfilled v2 →
        documented_check_both o1 o2 = SuccessBranch ∧
        data_of o1 = v1 ∧ data_of o2 = v2.
Proof.
  eexists. split; [reflexivity|].
  eapply (documented_check_both_classifies two_promises _ 0 1
            [EvSettle 1 (Fulfilled (VStr "posts"));
             EvSettle 0 (Fulfilled (VStr "user"))]
            (Fulfilled (VStr "user")) (Fulfilled (VStr "posts"))).
  - exact two_promises_reachable.
  - reflexivity.
  - reflexivity.
  - reflexivity.
Defined.

(** One event either leaves the coroutine of a call waiting, or is the job
    that completes this call. *)
Lemma waiting_step (st st' : state) (ev : event) (t : task) (q p : loc) :
  wf st → step st ev = Some st' →
  t ∈ st_tasks st → tryCatch_frame t q p →
  t ∈ st_tasks st' ∨
  ∃ s, st_heap st !! p = Some (CPromise (Settled s)) ∧
       st_heap st'
       = <[q := CPromise (Settled (Fulfilled (VRef (length (st_heap st)))))]>
           (st_heap st ++ [CObject (outcome s)]).
Proof.
  intros Hwf Hstep Ht Hfr.
  destruct ev as [|o|p' s|p'|j].
  - simpl in Hstep. simplify_eq. by left.
  - simpl in Hstep. simplify_eq. by left.
  - simpl in Hstep.
    destruct (st_heap st !! p') as [[|[|]]|]; try done.
    case_bool_decide; simplify_eq. by left.
  - apply call_starts in Hstep as (_ & t' & Hts' & _).
    left. rewrite Hts'. apply elem_of_app. by left.
  - pose proof Hstep as Hstep'. simpl in Hstep.
    destruct (st_tasks st !! j) as [tj|] eqn:Hj; [|done].
    destruct (st_heap st !! t_awaits tj) as [[|[|s]]|] eqn:Hs; try done.
    destruct (decide (t_out tj = q)) as [Hout|Hout].
    + assert (tj = t) as ->.
      { apply (task_by_out st); [done|by eapply list_elem_of_lookup_2|done|].
        destruct Hfr as [-> _]. done. }
      pose proof Hfr as (_ & Hpt & _). rewrite Hpt in Hs.
      rewrite (resume_frame _ _ _ _ _ _ Hj Hfr Hs) in Hstep'.
      right. exists s. split; [done|]. by injection Hstep' as <-.
    + left. simplify_eq. apply advance_tasks.
      rewrite (delete_Permutation _ _ _ Hj) in Ht.
      apply elem_of_cons in Ht as [->|Ht]; [|done].
      destruct Hfr as [? _]. done.
Qed.

(** The result objects of two calls stay apart under one event. *)
Lemma results_apart_step (st st' : state) (ev : event) (q1 p1 q2 p2 : loc) :
  wf st → step st ev = Some st' → q1 ≠ q2 →
  call_state st q1 p1 → call_state st q2 p2 →
  (∀ l1 l2, await_result st q1 = Some (Value (VRef l1)) →
            await_result st q2 = Some (Value (VRef l2)) → l1 ≠ l2) →
  ∀ l1 l2, await_result st' q1 = Some (Value (VRef l1)) →
           await_result st' q2 = Some (Value (VRef l2)) → l1 ≠ l2.
Proof.
  intros Hwf Hstep Hne Hc1 Hc2 IH l1 l2 H1%await_value H2%await_value.
  destruct (step_wf_extends _ _ _ Hwf Hstep) as [Hwf' [_ Hext]].
  assert (Hwait : ∀ t q p l,
            t ∈ st_tasks st → tryCatch_frame t q p →
            st_heap st' !! q = Some (CPromise (Settled (Fulfilled (VRef l)))) →
            l = length (st_heap st) ∧
            ∀ q', q' ≠ q → q' < length (st_heap st) →
                  st_heap st' !! q' = st_heap st !! q').
  { intros t q p l Ht Hfr Hq.
    pose proof (waiting_pending _ _ _ _ Hwf Ht Hfr) as Hpend.
    pose proof (lookup_lt_Some _ _ _ Hpend) as Hlt.
    destruct (waiting_step _ _ _ _ _ _ Hwf Hstep Ht Hfr) as [Ht'|(s & _ & Hh)].
    - rewrite (waiting_pending _ _ _ _ Hwf' Ht' Hfr) in Hq. done.
    - rewrite Hh in Hq.
      rewrite list_lookup_insert_eq in Hq by (rewrite length_app; lia).
      split; [congruence|]. intros q' Hq' Hlt'.
      rewrite Hh, list_lookup_insert_ne by done. by rewrite lookup_app_l. }
  destruct Hc1 as [t1 Ht1 Hfr1|s1 l1' Hp1 Hq1 Hl1];
    destruct Hc2 as [t2 Ht2 Hfr2|s2 l2' Hp2 Hq2 Hl2].
  - destruct (Hwait _ _ _ _ Ht2 Hfr2 H2) as [_ Hframe].
    pose proof (waiting_pending _ _ _ _ Hwf Ht1 Hfr1) as Hpend.
    rewrite (Hframe q1 Hne (lookup_lt_Some _ _ _ Hpend)), Hpend in H1. done.
  - destruct (Hwait _ _ _ _ Ht1 Hfr1 H1) as [-> _].
    rewrite (Hext _ _ Hq2 eq_refl) in H2. simplify_eq.
    apply lookup_lt_Some in Hl2. lia.
  - destruct (Hwait _ _ _ _ Ht2 Hfr2 H2) as [-> _].
    rewrite (Hext _ _ Hq1 eq_refl) in H1. simplify_eq.
    apply lookup_lt_Some in Hl1. lia.
  - rewrite (Hext _ _ Hq1 eq_refl) in H1. rewrite (Hext _ _ Hq2 eq_refl) in H2.
    simplify_eq. apply IH; unfold await_result; by rewrite ?Hq1, ?Hq2.
Qed.

Lemma results_apart_run (evs : list event) (q1 p1 q2 p2 : loc) :
  ∀ st st', wf st → run st evs = Some st' → q1 ≠ q2 →
  call_state st q1 p1 → call_state st q2 p2 →
  (∀ l1 l2, await_result st q1 = Some (Value (VRef l1)) →
            await_result st q2 = Some (Value (VRef l2)) → l1 ≠ l2) →
  ∀ l1 l2, await_result st' q1 = Some (Value (VRef l1)) →
           await_result st' q2 = Some (Value (VRef l2)) → l1 ≠ l2.
Proof.
  induction evs as [|ev evs IH]; simpl; intros st st' Hwf Hrun Hne Hc1 Hc2 Hap.
  - by simplify_eq.
  - destruct (step st ev) as [st1|] eqn:Hstep; [|done].
    eapply (IH st1 st'); [by eapply step_wf_extends|done|done| | |].
    + by eapply call_state_step.
    + by eapply call_state_step.
    + by eapply results_apart_step.
Qed.

(** X7. Every call builds a result object of its own: two calls, on the
    same promise or on two, never return the same object, and their output
    promises differ as well. *)
Theorem tryCatch_results_distinct
    (st st1 st' st1' st2 : state) (p1 p2 : loc) (evs1 evs2 : list event)
    (l1 l2 : loc) :
  reachable st →
  step st (EvCall p1) = Some st1 →
  run st1 evs1 = Some st' →
  step st' (EvCall p2) = Some st1' →
  run st1' evs2 = Some st2 →
  await_result st2 (call_result st) = Some (Value (VRef l1)) →
  await_result st2 (call_result st') = Some (Value (VRef l2)) →
  call_result st ≠ call_result st' ∧ l1 ≠ l2 ∧
  ∃ o1 o2, st_heap st2 !! l1 = Some (CObject o1) ∧
           st_heap st2 !! l2 = Some (CObject o2).
Proof.
  intros Hr Hcall1 Hrun1 Hcall2 Hrun2 H1 H2. apply reachable_wf in Hr.
  destruct (call_invariant _ _ _ _ _ Hr Hcall1 Hrun1) as [Hwf' Hc1].
  destruct (step_wf_extends _ _ _ Hwf' Hcall2) as [Hwf1' _].
  pose proof (call_state_step _ _ _ _ _ Hwf' Hcall2 Hc1) as Hc1'.
  destruct (call_invariant st' st1' st1' p2 [] Hwf' Hcall2 eq_refl) as [_ Hc2'].
  assert (Hne : call_result st ≠ call_result st').
  { assert (call_result st < length (st_heap st')); [|unfold call_result at 2; lia].
    destruct Hc1 as [t Ht Hfr|s l Hp Hq Hl].
    - eapply lookup_lt_Some. by eapply waiting_pending.
    - by eapply lookup_lt_Some. }
  split; [done|]. split.
  - eapply (results_apart_run evs2 _ p1 _ p2 st1' st2); try done.
    intros l1' l2' _ Hl2'. apply call_starts in Hcall2 as [Hh _].
    unfold await_result, call_result in Hl2'.
    rewrite Hh, lookup_app_r in Hl2' by lia.
    by rewrite Nat.sub_diag in Hl2'.
  - destruct (call_invariant _ _ _ _ _ Hwf' Hcall2 Hrun2) as [Hwf2 Hc2].
    pose proof (call_state_run _ _ _ _ _ Hwf1' Hrun2 Hc1') as Hc1''.
    apply await_value in H1, H2.
    destruct Hc1'' as [t Ht Hfr|s l Hp Hq Hl].
    { rewrite (waiting_pending _ _ _ _ Hwf2 Ht Hfr) in H1. done. }
    destruct Hc2 as [t' Ht' Hfr'|s' l' Hp' Hq' Hl'].
    { rewrite (waiting_pending _ _ _ _ Hwf2 Ht' Hfr') in H2. done. }
    simplify_eq. eauto.
Qed.

Lemma tryCatch_results_distinct_witness :
  ∃ st1 st' st1' st2,
    step one_promise (EvCall 0) = Some st1 ∧
    run st1 [EvSettle 0 (Fulfilled (VStr "user"))] = Some st' ∧
    step st' (EvCall 0) = Some st1' ∧
    run st1' [EvResume 1; EvResume 0] = Some st2 ∧
    await_result st2 (call_result one_promise) = Some (Value (VRef 4)) ∧
    await_result st2 (call_result st') = Some (Value (VRef 3)) ∧
    call_result one_promise ≠ call_result st' ∧ 4 ≠ 3 ∧
    ∃ o1 o2, st_heap st2 !! 4 = Some (CObject o1) ∧
             st_heap st2 !! 3 = Some (CObject o2).
Proof.
  eexists _, _, _, _.
  refine (conj _ (conj _ (conj _ (conj _ (conj _ (conj _ _)))))); cycle 6.
  - eapply (tryCatch_results_distinct one_promise _ _ _ _ 0 0
              [EvSettle 0 (Fulfilled (VStr "user"))] [EvResume 1; EvResume 0]
              4 3).
    + exact one_promise_reachable.
    + reflexivity.
    + reflexivity.
    + reflexivity.
    + reflexivity.
    + reflexivity.
    + reflexivity.
  - reflexivity.
  - reflexivity.
  - reflexivity.
  - reflexivity.
  - reflexivity.
  - reflexivity.
Defined.
